(** * CAmkES templates: shared-data connector, call fragment, capability names

    A shallow embedding of three templates of the CAmkES code generator:

    - [seL4SharedData-to.template.c]: the dataport backing block and the
      generated [<name>_wrap_ptr] / [<name>_unwrap_ptr] functions;
    - [call-unmarshal-inputs.c]: the fragment that renders the call
      [function(size, ...)] from the list of input parameters;
    - [component.all_tcb_caps.h]: the [ALL_TCB_CAPS_*] macros and the
      [cap_names] array.

    C integers are [Z] with the conversions written out, the [dataport_ptr_t]
    object behind the output pointer is threaded as state, generated C text is
    a list of tokens, and the Python dictionary [cnode.slots] is a [gmap]. *)

From Stdlib Require Import ZArith Lia String List.
From stdpp Require Import base numbers option list strings fin_maps gmap.

Local Open Scope Z_scope.

(** ** C integer conversions *)

Module CInt.

(** Conversion to an unsigned type of [bits] bits: reduction modulo
    [2 ^ bits]. *)
Definition to_unsigned (bits x : Z) : Z := x mod 2 ^ bits.

(** Conversion to a signed type of [bits] bits. For a value out of range the
    result is implementation-defined in C; gcc reduces modulo [2 ^ bits]
    into the two's complement range, which is what is written here. *)
Definition to_signed (bits x : Z) : Z :=
  (x + 2 ^ (bits - 1)) mod 2 ^ bits - 2 ^ (bits - 1).

End CInt.

(** ** [seL4SharedData-to.template.c] *)

Module SharedData.
Import CInt.

(** [#define SHM_ALIGN (1 << 12)] *)
Definition SHM_ALIGN : Z := Z.shiftl 1 12.

(** Modelled from the spec: the macro [PAGE_SIZE_4K] is not defined in the
    template; the specification fixes the page size at 4096 bytes. *)
Definition PAGE_SIZE_4K : Z := 4096.

(** Modelled from the spec: the macro [ROUND_UP_UNSAFE] is not defined in
    the template; the specification describes it as [round_up(n, b)], the
    least multiple of [b] that is not below [n]. It is written the way such
    a macro is, with the remainder added back when there is one. *)
Definition ROUND_UP_UNSAFE (n b : Z) : Z :=
  n + (if n mod b =? 0 then 0 else b - n mod b).

(** The instance of the template: the values substituted for [id],
    for the interface pointer [me.to_interface.name] (initialised to the
    address of the dataport symbol) and for [sizeof(type)]. *)
Record instance := {
  me_id : Z;
  me_name : Z;
  me_sizeof : Z
}.

(** [struct { char content[ROUND_UP_UNSAFE(sizeof(type), PAGE_SIZE_4K)]; }]:
    the size in bytes of the backing block. *)
Definition dataport_symbol_size (sizeof_type : Z) : Z :=
  ROUND_UP_UNSAFE sizeof_type PAGE_SIZE_4K.

(** The spec's rounding, [ceil(sz / 4096) * 4096], on integers. *)
Definition ceil_div (n b : Z) : Z := (n + b - 1) / b.

(** Modelled from the spec: [dataport_ptr_t] is declared in
    [camkes/dataport.h], which is not part of the template; the
    specification gives it the two fields [id] (an integer) and [offset].
    The [offset] field holds the value of the template's [(off_t)] cast. *)
Record dataport_ptr_t := {
  id : Z;
  offset : Z
}.

(** *** Stores through the output pointer

    [<name>_wrap_ptr] writes through [p]. A computation takes the object
    behind [p] and returns its result, the object afterwards and the list
    of stores it performed, oldest first. *)
Inductive store : Type :=
| Store_id (v : Z)
| Store_offset (v : Z).

Definition C (A : Type) : Type :=
  dataport_ptr_t -> A * dataport_ptr_t * list store.

Definition ret {A} (a : A) : C A := fun s => (a, s, nil).

Definition bind {A B} (m : C A) (k : A -> C B) : C B :=
  fun s =>
    let '(a, s1, w1) := m s in
    let '(b, s2, w2) := k a s1 in
    (b, s2, (w1 ++ w2)%list).

Definition set_id (v : Z) : C unit :=
  fun s => (tt, {| id := v; offset := offset s |}, Store_id v :: nil).

Definition set_offset (v : Z) : C unit :=
  fun s => (tt, {| id := id s; offset := v |}, Store_offset v :: nil).

Declare Scope c_scope.
Delimit Scope c_scope with C.
Notation "m1 ;; m2" := (bind m1 (fun _ => m2))
  (at level 100, m2 at level 200, right associativity) : c_scope.

Definition NULL : Z := 0.

(** The three components of a finished computation. *)
Definition result {A} (r : A * dataport_ptr_t * list store) : A := r.1.1.
Definition object {A} (r : A * dataport_ptr_t * list store)
  : dataport_ptr_t := r.1.2.
Definition stores {A} (r : A * dataport_ptr_t * list store)
  : list store := r.2.

Section Target.
(** Widths of [uintptr_t] (and [size_t]) and of [off_t] on the target. *)
Variables ptr_bits off_bits : Z.

Definition to_uintptr (x : Z) : Z := to_unsigned ptr_bits x.
Definition to_off_t (x : Z) : Z := to_signed off_bits x.

Variable me : instance.

(** [int <name>__run(void)] *)
Definition __run : Z := 0.

(** [int <name>_wrap_ptr(dataport_ptr_t *p, void *ptr)] *)
Definition _wrap_ptr (ptr : Z) : C Z :=
  if (to_uintptr ptr <? to_uintptr (me_name me))
     || (to_uintptr ptr >=?
           to_uintptr (to_uintptr (me_name me) + me_sizeof me))
  then ret (-1)
  else
    (set_id (me_id me) ;;
     set_offset
       (to_off_t (to_uintptr (to_uintptr ptr - to_uintptr (me_name me)))) ;;
     ret 0)%C.

(** [void * <name>_unwrap_ptr(dataport_ptr_t *p)] *)
Definition _unwrap_ptr (p : dataport_ptr_t) : Z :=
  if id p =? me_id me
  then to_uintptr (to_uintptr (me_name me) + to_uintptr (offset p))
  else NULL.

(** The shared object is an object of the program: it lies in the address
    space, the address one past its end is representable, and an offset
    into it is representable in [off_t]. *)
Definition valid_region : Prop :=
  0 <= me_name me /\
  1 <= me_sizeof me /\
  me_name me + me_sizeof me < 2 ^ ptr_bits /\
  me_sizeof me <= 2 ^ (off_bits - 1).

End Target.

(** A region whose type is 100 bytes long, placed at 0x10000: its backing
    block is one page, of which the last 3996 bytes are padding. *)
Definition small_region : instance :=
  {| me_id := 1; me_name := 65536; me_sizeof := 100 |}.

(** A second region, with another id. *)
Definition other_region : instance :=
  {| me_id := 2; me_name := 131072; me_sizeof := 100 |}.

(** Some earlier content of the output object. *)
Definition stale_ptr : dataport_ptr_t := {| id := 7; offset := 9 |}.

(** The dataport of [small_region] as a second instance maps it, at another
    address: the same id and the same type. *)
Definition peer_region : instance :=
  {| me_id := 1; me_name := 131072; me_sizeof := 100 |}.

(** A region of 3 GiB on a 32-bit target: its size is beyond the positive
    range of a 32-bit [off_t]. *)
Definition huge_region : instance :=
  {| me_id := 3; me_name := 4096; me_sizeof := 3221225472 |}.

(** A one-page region that ends exactly at the top of a 32-bit address
    space. *)
Definition top_region : instance :=
  {| me_id := 4; me_name := 4294963200; me_sizeof := 4096 |}.

End SharedData.

(** ** [call-unmarshal-inputs.c] *)

Module CallUnmarshalInputs.

(** An element of [input_parameters]: the fields the fragment reads. *)
Record parameter := {
  name : string;
  array : bool
}.

(** The generated text, as C tokens. The names substituted by the template
    are identifiers, so [/*? p.name ?*/_ptr] is one identifier. *)
Inductive token : Type :=
| Ident (s : string)
| LParen
| RParen
| Comma.

(** The body of [for p in input_parameters]; [loop.last] holds when no
    parameter follows [p]. *)
Fixpoint for_input_parameters (ps : list parameter) : list token :=
  match ps with
  | [] => []
  | p :: rest =>
      let loop_last := match rest with [] => true | _ => false end in
      (if array p then [Ident (name p +:+ "_sz_ptr"); Comma] else [])
      ++ [Ident (name p +:+ "_ptr")]
      ++ (if negb loop_last then [Comma] else [])
      ++ for_input_parameters rest
  end.

(** The whole fragment. *)
Definition call_unmarshal_inputs
    (function size : string) (input_parameters : list parameter)
    : list token :=
  [Ident function; LParen; Ident size]
  ++ (if (0 <? length input_parameters)%nat then [Comma] else [])
  ++ for_input_parameters input_parameters
  ++ [RParen].

(** Reading the generated call back: the arguments of a C call whose
    arguments are identifiers, up to the closing parenthesis. *)
Fixpoint arguments (ts : list token) : option (list string) :=
  match ts with
  | Ident a :: RParen :: [] => Some [a]
  | Ident a :: Comma :: rest => cons a <$> arguments rest
  | _ => None
  end.

(** The callee and the slots (arguments) of a generated call. *)
Definition call_slots (ts : list token) : option (string * list string) :=
  match ts with
  | Ident f :: LParen :: rest => pair f <$> arguments rest
  | _ => None
  end.

(** The descriptor as the specification lays it out: one slot for a scalar
    (the pointer to the value), two for an array (the pointer to the element
    count, then the pointer to the element buffer). *)
Definition spec_parameter_slots (p : parameter) : list string :=
  if array p then [name p +:+ "_sz_ptr"; name p +:+ "_ptr"]
  else [name p +:+ "_ptr"].

Definition spec_descriptor (size : string) (ps : list parameter)
    : list string :=
  size :: concat (map spec_parameter_slots ps).

Definition scalar (n : string) : parameter :=
  {| name := n; array := false |}.
Definition array_of (n : string) : parameter :=
  {| name := n; array := true |}.

End CallUnmarshalInputs.

(** ** [component.all_tcb_caps.h] *)

Module AllTcbCaps.

(** A capability, as far as the template reads it: [cap.referent.name]. *)
Record cap := {
  referent_name : string
}.

(** [cap_space]: the slot indices of [all_tcb_caps_slots] and the dictionary
    [cnode.slots], from slot index to a capability or [None]. Slot indices
    are indices into a CNode, natural numbers. *)
Record cap_space := {
  all_tcb_caps_slots : list N;
  cnode_slots : gmap N (option cap)
}.

(** Python's [min] and [max] of a list; the empty list raises. *)
Definition py_min (l : list N) : option N :=
  match l with
  | [] => None
  | x :: l' => Some (foldl N.min x l')
  end.

Definition py_max (l : list N) : option N :=
  match l with
  | [] => None
  | x :: l' => Some (foldl N.max x l')
  end.

(** [#define ALL_TCB_CAPS_MIN], [ALL_TCB_CAPS_MAX]: [hex] prints the number
    as a C constant of the same value. *)
Definition ALL_TCB_CAPS_MIN (cs : cap_space) : option N :=
  py_min (all_tcb_caps_slots cs).

Definition ALL_TCB_CAPS_MAX (cs : cap_space) : option N :=
  py_max (all_tcb_caps_slots cs).

(** [#define ALL_TCB_CAPS_NUM (ALL_TCB_CAPS_MAX - ALL_TCB_CAPS_MIN + 1)].
    Slot indices are bounded by the size of a CNode, far below the range of
    [int], so the constant expression is evaluated without overflow. *)
Definition ALL_TCB_CAPS_NUM (cs : cap_space) : option Z :=
  mx ← ALL_TCB_CAPS_MAX cs;
  mn ← ALL_TCB_CAPS_MIN cs;
  Some (Z.of_N mx - Z.of_N mn + 1).

(** The initializer list of [cap_names]: one designated initializer
    [[idx] = "name"] for each item of [cnode.slots] whose capability is
    set. *)
Fixpoint designators (items : list (N * option cap)) : list (N * string) :=
  match items with
  | [] => []
  | (idx, Some c) :: rest => (idx, referent_name c) :: designators rest
  | (idx, None) :: rest => designators rest
  end.

Definition cap_names_init (cs : cap_space) : list (N * string) :=
  designators (map_to_list (cnode_slots cs)).

(** The array a C compiler builds from designated initializers:
    [[i] = s] sets element [i], growing the array with null pointers
    ([None]) when [i] is past its end. *)
Definition designate (arr : list (option string)) (d : N * string)
    : list (option string) :=
  let i := N.to_nat d.1 in
  <[i := Some d.2]> (arr ++ replicate (S i - length arr) None).

(** [static char *cap_names[] = { ... };] *)
Definition cap_names (cs : cap_space) : list (option string) :=
  foldl designate [] (cap_names_init cs).

(** A capability space whose TCB capabilities span the slots 2 to 5 and
    whose CNode has slots 3 and 5 set, to objects named [a] and [b], and
    slots 2 and 4 empty. *)
Definition example_cap_space (a b : string) : cap_space :=
  {| all_tcb_caps_slots := [2; 3; 4; 5]%N;
     cnode_slots :=
       <[2%N := None]>
         (<[3%N := Some {| referent_name := a |}]>
            (<[4%N := None]>
               (<[5%N := Some {| referent_name := b |}]> ∅))) |}.

(** A capability space whose TCB capabilities are in the slots 2 and 3,
    while its CNode also holds an endpoint in slot 1 and a frame in slot 7;
    slot 2 is empty. *)
Definition wide_cap_space : cap_space :=
  {| all_tcb_caps_slots := [2; 3]%N;
     cnode_slots :=
       <[1%N := Some {| referent_name := "ep" |}]>
         (<[2%N := None]>
            (<[3%N := Some {| referent_name := "tcb_b" |}]>
               (<[7%N := Some {| referent_name := "frame" |}]> ∅))) |}.

(** [cap_names] as built when [cnode.slots.items()] yields the items in the
    order [items]. *)
Definition cap_names_from (items : list (N * option cap))
    : list (option string) :=
  foldl designate [] (designators items).

End AllTcbCaps.

(** * Properties *)

(** ** Integer conversions *)

Module CIntFacts.
Import CInt.

Lemma to_unsigned_small bits x :
  0 <= x < 2 ^ bits -> to_unsigned bits x = x.
Proof. intros Hx. unfold to_unsigned. now apply Z.mod_small. Qed.

Lemma to_unsigned_add bits x y :
  to_unsigned bits (to_unsigned bits x + to_unsigned bits y)
  = to_unsigned bits (x + y).
Proof. unfold to_unsigned. now rewrite <- Zplus_mod. Qed.

Lemma pow2_half bits : 1 <= bits -> 2 ^ bits = 2 * 2 ^ (bits - 1).
Proof.
  intros Hb. replace bits with (Z.succ (bits - 1)) at 1 by lia.
  rewrite Z.pow_succ_r by lia. reflexivity.
Qed.

Lemma to_signed_small bits x :
  0 <= x < 2 ^ (bits - 1) -> to_signed bits x = x.
Proof.
  intros Hx. unfold to_signed.
  assert (Hb : 1 <= bits).
  { destruct (Z.le_gt_cases 1 bits) as [|Hlt]; [assumption|].
    rewrite Z.pow_neg_r in Hx by lia. lia. }
  rewrite Z.mod_small; [lia|]. rewrite (pow2_half bits Hb). lia.
Qed.

Lemma to_unsigned_to_signed pb ob x :
  0 <= pb <= ob -> to_unsigned pb (to_signed ob x) = to_unsigned pb x.
Proof.
  intros Hb. unfold to_unsigned, to_signed.
  assert (Hpow : 2 ^ ob = 2 ^ (ob - pb) * 2 ^ pb).
  { rewrite <- Z.pow_add_r by lia. f_equal. lia. }
  assert (Hpos : 0 < 2 ^ ob) by (apply Z.pow_pos_nonneg; lia).
  set (h := 2 ^ (ob - 1)).
  rewrite (Z.mod_eq (x + h) (2 ^ ob)) by lia.
  set (q := (x + h) / 2 ^ ob).
  replace (x + h - 2 ^ ob * q - h)
    with (x + (- (q * 2 ^ (ob - pb))) * 2 ^ pb) by (rewrite Hpow; ring).
  apply Z_mod_plus_full.
Qed.

End CIntFacts.

(** ** The shared-data connector *)

Module SharedDataFacts.
Import CInt CIntFacts SharedData.

Lemma PAGE_SIZE_4K_is_SHM_ALIGN : PAGE_SIZE_4K = SHM_ALIGN.
Proof. reflexivity. Qed.

(** *** Rounding up to a multiple *)

Lemma ROUND_UP_UNSAFE_multiple n b :
  0 < b -> ROUND_UP_UNSAFE n b mod b = 0.
Proof.
  intros Hb. unfold ROUND_UP_UNSAFE.
  destruct (Z.eqb_spec (n mod b) 0) as [E|E].
  - now rewrite Z.add_0_r.
  - replace (n + (b - n mod b)) with (n - n mod b + 1 * b) by lia.
    rewrite Z.mod_add by lia.
    rewrite Zminus_mod_idemp_r, Z.sub_diag. now apply Z.mod_0_l; lia.
Qed.

Lemma ROUND_UP_UNSAFE_bounds n b :
  0 < b -> n <= ROUND_UP_UNSAFE n b < n + b.
Proof.
  intros Hb. unfold ROUND_UP_UNSAFE.
  pose proof (Z.mod_pos_bound n b Hb) as Hm.
  destruct (Z.eqb_spec (n mod b) 0); lia.
Qed.

Lemma ROUND_UP_UNSAFE_ceil n b :
  0 < b -> ROUND_UP_UNSAFE n b = ceil_div n b * b.
Proof.
  intros Hb. unfold ROUND_UP_UNSAFE, ceil_div.
  pose proof (Z.mod_pos_bound n b Hb) as Hm.
  pose proof (Z.div_mod n b ltac:(lia)) as Hn.
  destruct (Z.eqb_spec (n mod b) 0) as [E|E].
  - replace (n + b - 1) with (n / b * b + (b - 1)) by lia.
    rewrite Z.div_add_l by lia.
    rewrite (Z.div_small (b - 1) b) by lia. lia.
  - replace (n + b - 1) with ((n / b + 1) * b + (n mod b - 1)) by lia.
    rewrite Z.div_add_l by lia.
    rewrite (Z.div_small (n mod b - 1) b) by lia. lia.
Qed.

Lemma sizeof_le_capacity sz : sz <= dataport_symbol_size sz.
Proof.
  unfold dataport_symbol_size.
  apply (ROUND_UP_UNSAFE_bounds sz PAGE_SIZE_4K). reflexivity.
Qed.

(** *** The bounds check of [_wrap_ptr] *)

Section Target.
Variables ptr_bits off_bits : Z.
Variable me : instance.
Hypothesis Hvalid : valid_region ptr_bits off_bits me.

Lemma base_in_range : to_uintptr ptr_bits (me_name me) = me_name me.
Proof.
  destruct Hvalid as (Hb & Hs & Hend & _).
  apply to_unsigned_small. lia.
Qed.

Lemma end_in_range :
  to_uintptr ptr_bits (to_uintptr ptr_bits (me_name me) + me_sizeof me)
  = me_name me + me_sizeof me.
Proof.
  rewrite base_in_range.
  destruct Hvalid as (Hb & Hs & Hend & _).
  apply to_unsigned_small. lia.
Qed.

Lemma wrap_rejects ptr p :
  0 <= ptr < 2 ^ ptr_bits ->
  ptr < me_name me \/ me_name me + me_sizeof me <= ptr ->
  _wrap_ptr ptr_bits off_bits me ptr p = (-1, p, []).
Proof.
  intros Hptr Hout. unfold _wrap_ptr.
  rewrite end_in_range, base_in_range.
  unfold to_uintptr. rewrite (to_unsigned_small _ _ Hptr).
  rewrite Z.geb_leb.
  destruct Hout as [Hlo|Hhi].
  - apply Z.ltb_lt in Hlo. now rewrite Hlo.
  - apply Z.leb_le in Hhi. rewrite Hhi. now rewrite orb_true_r.
Qed.

Lemma wrap_accepts o p :
  0 <= o < me_sizeof me ->
  _wrap_ptr ptr_bits off_bits me (me_name me + o) p
  = (0, {| id := me_id me; offset := o |},
     [Store_id (me_id me); Store_offset o]).
Proof.
  intros Ho. unfold _wrap_ptr.
  rewrite end_in_range, base_in_range.
  destruct Hvalid as (Hb & Hs & Hend & Hoff).
  assert (Hp : to_uintptr ptr_bits (me_name me + o) = me_name me + o)
    by (apply to_unsigned_small; lia).
  rewrite Hp, Z.geb_leb.
  assert (Hlo : (me_name me + o <? me_name me) = false)
    by (apply Z.ltb_ge; lia).
  assert (Hhi : (me_name me + me_sizeof me <=? me_name me + o) = false)
    by (apply Z.leb_gt; lia).
  rewrite Hlo, Hhi. cbn [orb].
  replace (me_name me + o - me_name me) with o by lia.
  assert (Ho' : to_off_t off_bits (to_uintptr ptr_bits o) = o).
  { unfold to_uintptr, to_off_t.
    rewrite to_unsigned_small by lia. apply to_signed_small. lia. }
  rewrite Ho'. reflexivity.
Qed.

Lemma unwrap_own o :
  0 <= o < me_sizeof me ->
  _unwrap_ptr ptr_bits me {| id := me_id me; offset := o |}
  = me_name me + o.
Proof.
  intros Ho. unfold _unwrap_ptr. cbn [id offset].
  rewrite Z.eqb_refl, base_in_range.
  destruct Hvalid as (Hb & Hs & Hend & _).
  unfold to_uintptr.
  rewrite (to_unsigned_small ptr_bits o) by lia.
  apply to_unsigned_small. lia.
Qed.

End Target.

(** *** Wrapping and unwrapping *)

(** C1, as amended. For every valid region and every offset [o] inside the
    shared object, [0 <= o < sizeof(type)], wrapping the address
    [base + o] succeeds with return value 0, stores the region's id and
    then the offset [o] in the output object, and unwrapping the resulting
    portable pointer gives back the address that was wrapped. *)
Theorem wrap_unwrap_round_trip ptr_bits off_bits me p o :
  valid_region ptr_bits off_bits me ->
  0 <= o < me_sizeof me ->
  _wrap_ptr ptr_bits off_bits me (me_name me + o) p
  = (0, {| id := me_id me; offset := o |},
     [Store_id (me_id me); Store_offset o])
  /\ _unwrap_ptr ptr_bits me
       (object (_wrap_ptr ptr_bits off_bits me (me_name me + o) p))
     = me_name me + o.
Proof.
  intros Hvalid Ho.
  rewrite (wrap_accepts ptr_bits off_bits me Hvalid o p Ho).
  split; [reflexivity|]. cbn [object fst snd].
  exact (unwrap_own ptr_bits off_bits me Hvalid o Ho).
Qed.

Lemma wrap_unwrap_round_trip_witness :
  valid_region 32 32 small_region /\
  0 <= 99 < me_sizeof small_region /\
  _wrap_ptr 32 32 small_region (65536 + 99) stale_ptr
  = (0, {| id := 1; offset := 99 |}, [Store_id 1; Store_offset 99]) /\
  _unwrap_ptr 32 small_region
    (object (_wrap_ptr 32 32 small_region (65536 + 99) stale_ptr))
  = 65536 + 99.
Proof.
  assert (Hv : valid_region 32 32 small_region)
    by (unfold valid_region; cbn; lia).
  assert (Ho : 0 <= 99 < me_sizeof small_region) by (cbn; lia).
  split; [exact Hv|]. split; [exact Ho|].
  exact (wrap_unwrap_round_trip 32 32 small_region stale_ptr 99 Hv Ho).
Defined.

(** C1, as stated, fails: offset 100 is below the page-rounded capacity
    4096 of [small_region], yet wrapping [base + 100] returns -1 and leaves
    the output object as it was. *)
Lemma wrap_rejects_padding_offset :
  valid_region 32 32 small_region /\
  0 <= 100 < dataport_symbol_size (me_sizeof small_region) /\
  _wrap_ptr 32 32 small_region (me_name small_region + 100) stale_ptr
  = (-1, stale_ptr, []).
Proof.
  split; [unfold valid_region; cbn; lia|].
  split; [vm_compute; intuition congruence|].
  vm_compute. reflexivity.
Qed.

(** C2. For every valid region and every address [a] below the base or at
    or above the base plus the page-rounded capacity, [_wrap_ptr] returns
    -1, performs no store and leaves the output object unchanged. *)
Theorem wrap_rejects_outside_capacity ptr_bits off_bits me p a :
  valid_region ptr_bits off_bits me ->
  0 <= a < 2 ^ ptr_bits ->
  a < me_name me \/ a >= me_name me + dataport_symbol_size (me_sizeof me) ->
  _wrap_ptr ptr_bits off_bits me a p = (-1, p, []).
Proof.
  intros Hvalid Ha Hout.
  apply (wrap_rejects ptr_bits off_bits me Hvalid a p Ha).
  pose proof (sizeof_le_capacity (me_sizeof me)) as Hcap.
  destruct Hout as [Hlo|Hhi]; [left; exact Hlo | right; lia].
Qed.

Lemma wrap_rejects_outside_capacity_witness :
  valid_region 32 32 small_region /\
  0 <= 69632 < 2 ^ 32 /\
  (69632 < me_name small_region \/
   69632 >= me_name small_region
            + dataport_symbol_size (me_sizeof small_region)) /\
  _wrap_ptr 32 32 small_region 69632 stale_ptr = (-1, stale_ptr, []).
Proof.
  assert (Hv : valid_region 32 32 small_region)
    by (unfold valid_region; cbn; lia).
  assert (Ha : 0 <= 69632 < 2 ^ 32) by lia.
  assert (Hout : 69632 < me_name small_region \/
                 69632 >= me_name small_region
                          + dataport_symbol_size (me_sizeof small_region))
    by (right; vm_compute; congruence).
  split; [exact Hv|]. split; [exact Ha|]. split; [exact Hout|].
  exact (wrap_rejects_outside_capacity 32 32 small_region stale_ptr 69632
           Hv Ha Hout).
Defined.

(** C3. For two regions with distinct ids and every offset [o], unwrapping
    in the second region a portable pointer stamped with the id of the
    first returns [NULL], whatever the offset. *)
Theorem unwrap_region_isolation ptr_bits R1 R2 o :
  me_id R1 <> me_id R2 ->
  _unwrap_ptr ptr_bits R2 {| id := me_id R1; offset := o |} = NULL.
Proof.
  intros Hne. unfold _unwrap_ptr. cbn [id].
  destruct (Z.eqb_spec (me_id R1) (me_id R2)) as [E|_]; [contradiction|].
  reflexivity.
Qed.

Lemma unwrap_region_isolation_witness :
  me_id small_region <> me_id other_region /\
  _unwrap_ptr 32 other_region {| id := me_id small_region; offset := 5 |}
  = NULL.
Proof.
  assert (Hne : me_id small_region <> me_id other_region) by (cbn; lia).
  split; [exact Hne|].
  exact (unwrap_region_isolation 32 small_region other_region 5 Hne).
Defined.

(** C6. For every declared type size [sz >= 1] the backing block has
    [ceil(sz / 4096) * 4096] bytes, the least multiple of 4096 that is not
    below [sz]; for the sizes 1, 4095, 4096, 4097 and 8192 that is 4096,
    4096, 4096, 8192 and 8192. *)
Theorem page_rounding sz :
  1 <= sz ->
  dataport_symbol_size sz = ceil_div sz 4096 * 4096
  /\ dataport_symbol_size sz mod 4096 = 0
  /\ sz <= dataport_symbol_size sz < sz + 4096
  /\ map dataport_symbol_size [1; 4095; 4096; 4097; 8192]
     = [4096; 4096; 4096; 8192; 8192].
Proof.
  intros _. unfold dataport_symbol_size, PAGE_SIZE_4K.
  split; [apply ROUND_UP_UNSAFE_ceil; lia|].
  split; [apply ROUND_UP_UNSAFE_multiple; lia|].
  split; [apply ROUND_UP_UNSAFE_bounds; lia|].
  reflexivity.
Qed.

Lemma page_rounding_witness :
  1 <= 4097 /\ dataport_symbol_size 4097 = 8192.
Proof.
  split; [lia|].
  destruct (page_rounding 4097 ltac:(lia)) as (Hceil & _).
  rewrite Hceil. reflexivity.
Defined.




(** C10. When [_wrap_ptr] returns -1 it has performed no store and the
    output object is unchanged; otherwise it returns 0 and has stored
    exactly the id and then the offset. *)
Theorem wrap_failure_stores_nothing ptr_bits off_bits me ptr p :
  (result (_wrap_ptr ptr_bits off_bits me ptr p) = -1 ->
   stores (_wrap_ptr ptr_bits off_bits me ptr p) = []
   /\ object (_wrap_ptr ptr_bits off_bits me ptr p) = p)
  /\ (result (_wrap_ptr ptr_bits off_bits me ptr p) <> -1 ->
      result (_wrap_ptr ptr_bits off_bits me ptr p) = 0
      /\ exists o,
           stores (_wrap_ptr ptr_bits off_bits me ptr p)
           = [Store_id (me_id me); Store_offset o]
           /\ object (_wrap_ptr ptr_bits off_bits me ptr p)
              = {| id := me_id me; offset := o |}).
Proof.
  unfold _wrap_ptr.
  destruct (_ || _); cbn.
  - split; [intros _; split; reflexivity | intros H; contradiction].
  - split; [intros H; discriminate|].
    intros _. split; [reflexivity|]. eexists. split; reflexivity.
Qed.

Lemma wrap_failure_stores_nothing_witness :
  result (_wrap_ptr 32 32 small_region 65535 stale_ptr) = -1 /\
  stores (_wrap_ptr 32 32 small_region 65535 stale_ptr) = [] /\
  object (_wrap_ptr 32 32 small_region 65535 stale_ptr) = stale_ptr.
Proof.
  assert (Hr : result (_wrap_ptr 32 32 small_region 65535 stale_ptr) = -1)
    by (vm_compute; reflexivity).
  split; [exact Hr|].
  exact (proj1 (wrap_failure_stores_nothing 32 32 small_region 65535
                  stale_ptr) Hr).
Defined.

(** *** Further properties of wrapping and unwrapping *)

Lemma wrap_in_object ptr_bits off_bits me o p :
  0 <= me_name me ->
  me_name me + me_sizeof me < 2 ^ ptr_bits ->
  0 <= o < me_sizeof me ->
  _wrap_ptr ptr_bits off_bits me (me_name me + o) p
  = (0, {| id := me_id me; offset := to_off_t off_bits o |},
     [Store_id (me_id me); Store_offset (to_off_t off_bits o)]).
Proof.
  intros Hb Hend Ho. unfold _wrap_ptr, to_uintptr.
  rewrite (to_unsigned_small ptr_bits (me_name me)) by lia.
  rewrite (to_unsigned_small ptr_bits (me_name me + o)) by lia.
  rewrite (to_unsigned_small ptr_bits (me_name me + me_sizeof me)) by lia.
  rewrite Z.geb_leb.
  assert (Hlo : (me_name me + o <? me_name me) = false)
    by (apply Z.ltb_ge; lia).
  assert (Hhi : (me_name me + me_sizeof me <=? me_name me + o) = false)
    by (apply Z.leb_gt; lia).
  rewrite Hlo, Hhi. cbn [orb].
  replace (me_name me + o - me_name me) with o by lia.
  rewrite (to_unsigned_small ptr_bits o) by lia.
  reflexivity.
Qed.

(** [_wrap_ptr] accepts exactly the addresses of the shared object: for a
    valid region and an address in the range of [uintptr_t], it returns 0 if
    and only if [base <= ptr < base + sizeof(type)]; the address one past the
    object and the padding of the backing block are rejected. *)
Theorem wrap_accepts_exactly ptr_bits off_bits me p ptr :
  valid_region ptr_bits off_bits me ->
  0 <= ptr < 2 ^ ptr_bits ->
  result (_wrap_ptr ptr_bits off_bits me ptr p) = 0
  <-> me_name me <= ptr < me_name me + me_sizeof me.
Proof.
  intros Hvalid Hptr. split.
  - intros Hres.
    destruct (Z.lt_ge_cases ptr (me_name me)) as [Hlo|Hlo];
      [|destruct (Z.lt_ge_cases ptr (me_name me + me_sizeof me)) as [Hhi|Hhi];
        [lia|]].
    + rewrite (wrap_rejects ptr_bits off_bits me Hvalid ptr p Hptr) in Hres
        by (left; exact Hlo).
      discriminate Hres.
    + rewrite (wrap_rejects ptr_bits off_bits me Hvalid ptr p Hptr) in Hres
        by (right; exact Hhi).
      discriminate Hres.
  - intros Hin.
    replace ptr with (me_name me + (ptr - me_name me)) by lia.
    rewrite (wrap_accepts ptr_bits off_bits me Hvalid) by lia.
    reflexivity.
Qed.

Lemma wrap_accepts_exactly_witness :
  valid_region 32 32 small_region /\
  0 <= 65635 < 2 ^ 32 /\
  (result (_wrap_ptr 32 32 small_region 65635 stale_ptr) = 0
   <-> me_name small_region <= 65635
       < me_name small_region + me_sizeof small_region).
Proof.
  assert (Hv : valid_region 32 32 small_region)
    by (unfold valid_region; cbn; lia).
  assert (Hp : 0 <= 65635 < 2 ^ 32) by lia.
  split; [exact Hv|]. split; [exact Hp|].
  exact (wrap_accepts_exactly 32 32 small_region stale_ptr 65635 Hv Hp).
Defined.

(** Unwrapping then wrapping is the identity on the portable pointers of a
    region: for a portable pointer carrying the region's id and an offset
    inside the shared object, [_unwrap_ptr] gives an address inside the
    object, and [_wrap_ptr] of that address succeeds and writes the same
    portable pointer back. *)
Theorem unwrap_wrap_round_trip ptr_bits off_bits me q p :
  valid_region ptr_bits off_bits me ->
  id q = me_id me ->
  0 <= offset q < me_sizeof me ->
  me_name me <= _unwrap_ptr ptr_bits me q < me_name me + me_sizeof me
  /\ result (_wrap_ptr ptr_bits off_bits me (_unwrap_ptr ptr_bits me q) p) = 0
  /\ object (_wrap_ptr ptr_bits off_bits me (_unwrap_ptr ptr_bits me q) p)
     = q.
Proof.
  intros Hvalid Hid Ho. destruct q as [i o]. cbn [id offset] in Hid, Ho.
  subst i.
  rewrite (unwrap_own ptr_bits off_bits me Hvalid o Ho).
  rewrite (wrap_accepts ptr_bits off_bits me Hvalid o p Ho).
  split; [lia|]. split; reflexivity.
Qed.

Lemma unwrap_wrap_round_trip_witness :
  valid_region 32 32 small_region /\
  id {| id := 1; offset := 42 |} = me_id small_region /\
  0 <= offset {| id := 1; offset := 42 |} < me_sizeof small_region /\
  object (_wrap_ptr 32 32 small_region
            (_unwrap_ptr 32 small_region {| id := 1; offset := 42 |})
            stale_ptr)
  = {| id := 1; offset := 42 |}.
Proof.
  assert (Hv : valid_region 32 32 small_region)
    by (unfold valid_region; cbn; lia).
  assert (Hid : id {| id := 1; offset := 42 |} = me_id small_region)
    by reflexivity.
  assert (Ho : 0 <= offset {| id := 1; offset := 42 |}
               < me_sizeof small_region) by (cbn; lia).
  split; [exact Hv|]. split; [exact Hid|]. split; [exact Ho|].
  exact (proj2 (proj2 (unwrap_wrap_round_trip 32 32 small_region
                         {| id := 1; offset := 42 |} stale_ptr Hv Hid Ho))).
Defined.

(** A portable pointer carries a location from one mapping of a dataport to
    another: when two instances have the same id and the same type size, an
    address wrapped by the first at offset [o] from its base is unwrapped by
    the second to its own base plus [o]. *)
Theorem wrap_unwrap_translates ptr_bits off_bits A B p o :
  valid_region ptr_bits off_bits A ->
  valid_region ptr_bits off_bits B ->
  me_id A = me_id B ->
  me_sizeof A = me_sizeof B ->
  0 <= o < me_sizeof A ->
  _unwrap_ptr ptr_bits B
    (object (_wrap_ptr ptr_bits off_bits A (me_name A + o) p))
  = me_name B + o.
Proof.
  intros HA HB Hid Hsz Ho.
  rewrite (wrap_accepts ptr_bits off_bits A HA o p Ho).
  cbn [object fst snd]. rewrite Hid.
  apply (unwrap_own ptr_bits off_bits B HB). lia.
Qed.

Lemma wrap_unwrap_translates_witness :
  valid_region 32 32 small_region /\
  valid_region 32 32 peer_region /\
  me_id small_region = me_id peer_region /\
  me_sizeof small_region = me_sizeof peer_region /\
  0 <= 42 < me_sizeof small_region /\
  _unwrap_ptr 32 peer_region
    (object (_wrap_ptr 32 32 small_region (me_name small_region + 42)
               stale_ptr))
  = me_name peer_region + 42.
Proof.
  assert (HA : valid_region 32 32 small_region)
    by (unfold valid_region; cbn; lia).
  assert (HB : valid_region 32 32 peer_region)
    by (unfold valid_region; cbn; lia).
  assert (Hid : me_id small_region = me_id peer_region) by reflexivity.
  assert (Hsz : me_sizeof small_region = me_sizeof peer_region)
    by reflexivity.
  assert (Ho : 0 <= 42 < me_sizeof small_region) by (cbn; lia).
  repeat (split; [assumption|]).
  exact (wrap_unwrap_translates 32 32 small_region peer_region stale_ptr 42
           HA HB Hid Hsz Ho).
Defined.

(** The round trip does not depend on the offset fitting the positive range
    of [off_t]: when [off_t] is at least as wide as [uintptr_t], every
    address of the shared object is wrapped with result 0 and unwrapped to
    itself, even where the stored offset has become negative. *)
Theorem wrap_unwrap_round_trip_any_size ptr_bits off_bits me p o :
  0 <= ptr_bits <= off_bits ->
  0 <= me_name me ->
  me_name me + me_sizeof me < 2 ^ ptr_bits ->
  0 <= o < me_sizeof me ->
  result (_wrap_ptr ptr_bits off_bits me (me_name me + o) p) = 0
  /\ offset (object (_wrap_ptr ptr_bits off_bits me (me_name me + o) p))
     = to_off_t off_bits o
  /\ _unwrap_ptr ptr_bits me
       (object (_wrap_ptr ptr_bits off_bits me (me_name me + o) p))
     = me_name me + o.
Proof.
  intros Hbits Hb Hend Ho.
  rewrite (wrap_in_object ptr_bits off_bits me o p Hb Hend Ho).
  split; [reflexivity|]. split; [reflexivity|].
  cbn [object fst snd]. unfold _unwrap_ptr. cbn [id offset].
  rewrite Z.eqb_refl. unfold to_uintptr, to_off_t.
  rewrite (to_unsigned_to_signed ptr_bits off_bits o Hbits).
  rewrite to_unsigned_add. apply to_unsigned_small. lia.
Qed.

Lemma wrap_unwrap_round_trip_any_size_witness :
  0 <= 32 <= 32 /\
  0 <= me_name huge_region /\
  me_name huge_region + me_sizeof huge_region < 2 ^ 32 /\
  0 <= 2147483653 < me_sizeof huge_region /\
  offset (object (_wrap_ptr 32 32 huge_region
                    (me_name huge_region + 2147483653) stale_ptr))
  = -2147483643 /\
  _unwrap_ptr 32 huge_region
    (object (_wrap_ptr 32 32 huge_region
               (me_name huge_region + 2147483653) stale_ptr))
  = me_name huge_region + 2147483653.
Proof.
  assert (Hbits : 0 <= 32 <= 32) by lia.
  assert (Hb : 0 <= me_name huge_region) by (cbn; lia).
  assert (Hend : me_name huge_region + me_sizeof huge_region < 2 ^ 32)
    by (cbn; lia).
  assert (Ho : 0 <= 2147483653 < me_sizeof huge_region) by (cbn; lia).
  repeat (split; [assumption|]).
  destruct (wrap_unwrap_round_trip_any_size 32 32 huge_region stale_ptr
              2147483653 Hbits Hb Hend Ho) as (_ & Hoff & Hrt).
  split; [rewrite Hoff; reflexivity | exact Hrt].
Defined.

(** When the shared object reaches the top of the address space, so that
    [base + sizeof(type)] wraps around in [uintptr_t], [_wrap_ptr] rejects
    every pointer, those into the object included, and stores nothing. *)
Theorem wrap_rejects_all_when_end_wraps ptr_bits off_bits me ptr p :
  0 <= me_name me < 2 ^ ptr_bits ->
  0 <= me_sizeof me <= 2 ^ ptr_bits ->
  2 ^ ptr_bits <= me_name me + me_sizeof me ->
  _wrap_ptr ptr_bits off_bits me ptr p = (-1, p, []).
Proof.
  intros Hb Hs Hwrap. unfold _wrap_ptr, to_uintptr.
  rewrite (to_unsigned_small ptr_bits (me_name me)) by lia.
  assert (Hend : to_unsigned ptr_bits (me_name me + me_sizeof me)
                 = me_name me + me_sizeof me - 2 ^ ptr_bits).
  { unfold to_unsigned. symmetry.
    apply (Z.mod_unique _ _ 1); [left; lia | lia]. }
  rewrite Hend.
  assert (Hu : 0 <= to_unsigned ptr_bits ptr < 2 ^ ptr_bits)
    by (unfold to_unsigned; apply Z.mod_pos_bound; lia).
  destruct (Z.ltb_spec (to_unsigned ptr_bits ptr) (me_name me)) as [Hlt|Hge];
    [reflexivity|].
  rewrite Z.geb_leb.
  assert (Hle : (me_name me + me_sizeof me - 2 ^ ptr_bits
                 <=? to_unsigned ptr_bits ptr) = true)
    by (apply Z.leb_le; lia).
  rewrite Hle. reflexivity.
Qed.

Lemma wrap_rejects_all_when_end_wraps_witness :
  0 <= me_name top_region < 2 ^ 32 /\
  0 <= me_sizeof top_region <= 2 ^ 32 /\
  2 ^ 32 <= me_name top_region + me_sizeof top_region /\
  _wrap_ptr 32 32 top_region (me_name top_region + 8) stale_ptr
  = (-1, stale_ptr, []).
Proof.
  assert (Hb : 0 <= me_name top_region < 2 ^ 32) by (cbn; lia).
  assert (Hs : 0 <= me_sizeof top_region <= 2 ^ 32) by (cbn; lia).
  assert (Hw : 2 ^ 32 <= me_name top_region + me_sizeof top_region)
    by (cbn; lia).
  repeat (split; [assumption|]).
  exact (wrap_rejects_all_when_end_wraps 32 32 top_region
           (me_name top_region + 8) stale_ptr Hb Hs Hw).
Defined.

End SharedDataFacts.

(** ** The call fragment *)

Module CallUnmarshalInputsFacts.
Import CallUnmarshalInputs.

(** The tokens of the loop, closed by the parenthesis, read back as the
    slots of the parameters: the commas separate and never trail. *)
Lemma arguments_for_input_parameters ps :
  ps <> [] ->
  arguments (for_input_parameters ps ++ [RParen])
  = Some (concat (map spec_parameter_slots ps)).
Proof.
  induction ps as [|p rest IH]; [congruence|]. intros _.
  destruct rest as [|q rest'].
  - cbn. unfold spec_parameter_slots. destruct (array p); reflexivity.
  - specialize (IH ltac:(discriminate)).
    change (for_input_parameters (p :: q :: rest'))
      with ((if array p then [Ident (name p +:+ "_sz_ptr"); Comma] else [])
            ++ [Ident (name p +:+ "_ptr")] ++ [Comma]
            ++ for_input_parameters (q :: rest')).
    change (concat (map spec_parameter_slots (p :: q :: rest')))
      with (spec_parameter_slots p
            ++ concat (map spec_parameter_slots (q :: rest'))).
    unfold spec_parameter_slots at 1.
    destruct (array p); cbn [app arguments]; rewrite IH; reflexivity.
Qed.

(** C4. The call rendered for any parameter list has, as its arguments,
    the size followed for each parameter in declared order by one slot
    [name_ptr] if it is scalar, or by the two slots [name_sz_ptr] then
    [name_ptr] if it is an array; for the parameters scalar, array, scalar
    these are five slots. *)
Theorem call_descriptor_layout function size ps :
  call_slots (call_unmarshal_inputs function size ps)
  = Some (function, spec_descriptor size ps)
  /\ (forall a b c,
        call_slots
          (call_unmarshal_inputs function size
             [scalar a; array_of b; scalar c])
        = Some (function,
                [size; a +:+ "_ptr"; b +:+ "_sz_ptr"; b +:+ "_ptr";
                 c +:+ "_ptr"])
        /\ length (spec_descriptor size [scalar a; array_of b; scalar c])
           = 5%nat).
Proof.
  split; [|intros a b c; split; reflexivity].
  unfold call_unmarshal_inputs, spec_descriptor.
  destruct ps as [|p rest]; [reflexivity|].
  cbn [length Nat.ltb Nat.leb app call_slots arguments].
  rewrite arguments_for_input_parameters by discriminate.
  reflexivity.
Qed.

(** C5. With no input parameters the fragment renders [function(size)]:
    the call has exactly one slot, the size. *)
Theorem call_without_parameters function size :
  call_unmarshal_inputs function size []
  = [Ident function; LParen; Ident size; RParen]
  /\ call_slots (call_unmarshal_inputs function size [])
     = Some (function, [size])
  /\ length (spec_descriptor size []) = 1%nat.
Proof. repeat split. Qed.

(** *** Counting and composing *)

Lemma length_parameter_slots ps :
  length (concat (map spec_parameter_slots ps))
  = (length ps + length (List.filter array ps))%nat.
Proof.
  induction ps as [|p rest IH]; [reflexivity|].
  cbn [map concat List.filter length]. rewrite length_app, IH.
  unfold spec_parameter_slots. destruct (array p); cbn [length]; lia.
Qed.

Lemma length_for_input_parameters ps :
  ps <> [] ->
  S (length (for_input_parameters ps))
  = (2 * length (concat (map spec_parameter_slots ps)))%nat.
Proof.
  induction ps as [|p rest IH]; [congruence|]. intros _.
  destruct rest as [|q rest'].
  - cbn. unfold spec_parameter_slots. destruct (array p); reflexivity.
  - specialize (IH ltac:(discriminate)).
    change (for_input_parameters (p :: q :: rest'))
      with ((if array p then [Ident (name p +:+ "_sz_ptr"); Comma] else [])
            ++ [Ident (name p +:+ "_ptr")] ++ [Comma]
            ++ for_input_parameters (q :: rest')).
    change (concat (map spec_parameter_slots (p :: q :: rest')))
      with (spec_parameter_slots p
            ++ concat (map spec_parameter_slots (q :: rest'))).
    rewrite !length_app. unfold spec_parameter_slots at 1.
    destruct (array p); cbn [length]; lia.
Qed.

Lemma call_slots_rendered function size ps :
  call_slots (call_unmarshal_inputs function size ps)
  = Some (function, size :: concat (map spec_parameter_slots ps)).
Proof.
  unfold call_unmarshal_inputs.
  destruct ps as [|p rest]; [reflexivity|].
  cbn [length Nat.ltb Nat.leb app call_slots arguments].
  rewrite arguments_for_input_parameters by discriminate.
  reflexivity.
Qed.

(** The rendered call always reads back as a call; it has one slot for the
    size, one for each parameter and one more for each array parameter, and
    its text has exactly two tokens per slot plus two: every comma separates
    two slots and none trails. *)
Theorem call_slot_and_token_count function size ps :
  exists slots,
    call_slots (call_unmarshal_inputs function size ps)
    = Some (function, slots)
    /\ length slots = (1 + length ps + length (List.filter array ps))%nat
    /\ length (call_unmarshal_inputs function size ps)
       = (2 * length slots + 2)%nat.
Proof.
  exists (size :: concat (map spec_parameter_slots ps)).
  split; [apply call_slots_rendered|].
  cbn [length]. rewrite length_parameter_slots.
  split; [lia|].
  unfold call_unmarshal_inputs.
  destruct ps as [|p rest]; [reflexivity|].
  pose proof (length_for_input_parameters (p :: rest) ltac:(discriminate))
    as Hlen.
  rewrite length_parameter_slots in Hlen.
  cbn [length Nat.ltb Nat.leb]. rewrite !length_app.
  cbn [length] in *. lia.
Qed.

(** The loop composes: the tokens rendered for two non-empty parameter lists
    one after the other are the tokens of the first, one comma, and the
    tokens of the second, so the slots of earlier parameters do not depend
    on the parameters that follow. *)
Theorem for_input_parameters_app ps1 ps2 :
  ps1 <> [] -> ps2 <> [] ->
  for_input_parameters (ps1 ++ ps2)
  = for_input_parameters ps1 ++ Comma :: for_input_parameters ps2.
Proof.
  intros H1 H2. induction ps1 as [|p rest IH]; [congruence|].
  destruct rest as [|q rest'].
  - destruct ps2 as [|r ps2']; [congruence|].
    cbn. destruct (array p); reflexivity.
  - specialize (IH ltac:(discriminate)).
    change (for_input_parameters ((p :: q :: rest') ++ ps2))
      with ((if array p then [Ident (name p +:+ "_sz_ptr"); Comma] else [])
            ++ [Ident (name p +:+ "_ptr")] ++ [Comma]
            ++ for_input_parameters ((q :: rest') ++ ps2)).
    rewrite IH.
    change (for_input_parameters (p :: q :: rest'))
      with ((if array p then [Ident (name p +:+ "_sz_ptr"); Comma] else [])
            ++ [Ident (name p +:+ "_ptr")] ++ [Comma]
            ++ for_input_parameters (q :: rest')).
    destruct (array p); cbn [app]; reflexivity.
Qed.

Lemma for_input_parameters_app_witness :
  [scalar "a"] <> [] /\ [array_of "b"; scalar "c"] <> [] /\
  for_input_parameters ([scalar "a"] ++ [array_of "b"; scalar "c"])
  = [Ident "a_ptr"; Comma; Ident "b_sz_ptr"; Comma; Ident "b_ptr"; Comma;
     Ident "c_ptr"].
Proof.
  assert (H1 : [scalar "a"] <> []) by discriminate.
  assert (H2 : [array_of "b"; scalar "c"] <> []) by discriminate.
  split; [exact H1|]. split; [exact H2|].
  rewrite (for_input_parameters_app [scalar "a"] [array_of "b"; scalar "c"]
             H1 H2).
  reflexivity.
Defined.

End CallUnmarshalInputsFacts.

(** ** The capability names *)

Module AllTcbCapsFacts.
Import AllTcbCaps.

(** *** [min] and [max] *)

Lemma foldl_min_spec l x :
  (foldl N.min x l = x \/ In (foldl N.min x l) l)
  /\ (foldl N.min x l <= x)%N
  /\ (forall y, In y l -> (foldl N.min x l <= y)%N).
Proof.
  revert x. induction l as [|a l IH]; intros x; cbn [foldl In].
  - split; [now left|]. split; [lia | intros y []].
  - destruct (IH (N.min x a)) as (Hin & Hle & Hall).
    split; [|split].
    + destruct Hin as [E|Hin]; [|now right; right].
      rewrite E. destruct (N.min_spec x a) as [[_ ->]|[_ ->]]; auto.
    + lia.
    + intros y [<-|Hy]; [lia | now apply Hall].
Qed.

Lemma foldl_max_spec l x :
  (foldl N.max x l = x \/ In (foldl N.max x l) l)
  /\ (x <= foldl N.max x l)%N
  /\ (forall y, In y l -> (y <= foldl N.max x l)%N).
Proof.
  revert x. induction l as [|a l IH]; intros x; cbn [foldl In].
  - split; [now left|]. split; [lia | intros y []].
  - destruct (IH (N.max x a)) as (Hin & Hle & Hall).
    split; [|split].
    + destruct Hin as [E|Hin]; [|now right; right].
      rewrite E. destruct (N.max_spec x a) as [[_ ->]|[_ ->]]; auto.
    + lia.
    + intros y [<-|Hy]; [lia | now apply Hall].
Qed.

Lemma py_min_spec l :
  l <> [] ->
  exists mn, py_min l = Some mn /\ mn ∈ l
             /\ forall y, y ∈ l -> (mn <= y)%N.
Proof.
  setoid_rewrite list_elem_of_In.
  destruct l as [|x l]; [congruence|]. intros _.
  destruct (foldl_min_spec l x) as (Hin & Hle & Hall).
  exists (foldl N.min x l). split; [reflexivity|]. split.
  - destruct Hin as [->|Hin]; [now left | now right].
  - intros y [<-|Hy]; [exact Hle | now apply Hall].
Qed.

Lemma py_max_spec l :
  l <> [] ->
  exists mx, py_max l = Some mx /\ mx ∈ l
             /\ forall y, y ∈ l -> (y <= mx)%N.
Proof.
  setoid_rewrite list_elem_of_In.
  destruct l as [|x l]; [congruence|]. intros _.
  destruct (foldl_max_spec l x) as (Hin & Hle & Hall).
  exists (foldl N.max x l). split; [reflexivity|]. split.
  - destruct Hin as [->|Hin]; [now left | now right].
  - intros y [<-|Hy]; [exact Hle | now apply Hall].
Qed.

(** *** The initializer list *)

Lemma elem_of_designators items idx s :
  (idx, s) ∈ designators items
  <-> exists c, (idx, Some c) ∈ items /\ referent_name c = s.
Proof.
  induction items as [|[i [c|]] rest IH]; cbn [designators].
  - split; [intros H; inversion H | intros (c & H & _); inversion H].
  - rewrite elem_of_cons, IH. split.
    + intros [E|(c' & Hin & Hn)].
      * inversion E; subst. exists c. split; [left|]; reflexivity.
      * exists c'. split; [now right | exact Hn].
    + intros (c' & Hin & Hn). apply elem_of_cons in Hin as [E|Hin].
      * inversion E; subst. now left.
      * right. now exists c'.
  - rewrite IH. split.
    + intros (c' & Hin & Hn). exists c'. split; [now right | exact Hn].
    + intros (c' & Hin & Hn). apply elem_of_cons in Hin as [E|Hin].
      * inversion E.
      * now exists c'.
Qed.

Lemma designators_keys items k :
  k ∈ (designators items).*1 -> k ∈ items.*1.
Proof.
  induction items as [|[i [c|]] rest IH]; cbn; intros H.
  - exact H.
  - apply elem_of_cons in H as [->|H]; [left | right; auto].
  - right. auto.
Qed.

Lemma NoDup_designators items :
  NoDup items.*1 -> NoDup (designators items).*1.
Proof.
  induction items as [|[i [c|]] rest IH]; cbn; intros H.
  - exact H.
  - apply NoDup_cons in H as [Hni Hnd]. apply NoDup_cons. split; [|auto].
    intros Hin. apply Hni. now apply designators_keys.
  - apply NoDup_cons in H as [_ Hnd]. auto.
Qed.

Lemma elem_of_cap_names_init cs idx s :
  (idx, s) ∈ cap_names_init cs
  <-> exists c, cnode_slots cs !! idx = Some (Some c) /\ referent_name c = s.
Proof.
  unfold cap_names_init. rewrite elem_of_designators.
  split; intros (c & H & Hn); exists c; (split; [|exact Hn]).
  - now apply elem_of_map_to_list.
  - now apply elem_of_map_to_list.
Qed.

Lemma NoDup_cap_names_init cs : NoDup (cap_names_init cs).*1.
Proof. apply NoDup_designators, NoDup_fst_map_to_list. Qed.

(** *** The array built from the initializer list *)

Lemma designate_lookup_eq arr d :
  designate arr d !! N.to_nat d.1 = Some (Some d.2).
Proof.
  unfold designate. apply list_lookup_insert_eq.
  rewrite length_app, length_replicate. lia.
Qed.

Lemma designate_lookup_ne arr d i x :
  N.to_nat d.1 <> i -> arr !! i = Some x -> designate arr d !! i = Some x.
Proof.
  intros Hne Hx. unfold designate.
  rewrite list_lookup_insert_ne by exact Hne.
  now apply lookup_app_l_Some.
Qed.

Lemma foldl_designate_keeps ds arr i x :
  Forall (fun d => N.to_nat d.1 <> i) ds ->
  arr !! i = Some x ->
  foldl designate arr ds !! i = Some x.
Proof.
  revert arr. induction ds as [|d ds IH]; intros arr Hds Hx; cbn [foldl].
  - exact Hx.
  - apply Forall_cons in Hds as [Hd Hds].
    apply IH; [exact Hds|]. now apply designate_lookup_ne.
Qed.

Lemma foldl_designate_lookup ds arr k s :
  NoDup ds.*1 -> (k, s) ∈ ds ->
  foldl designate arr ds !! N.to_nat k = Some (Some s).
Proof.
  revert arr. induction ds as [|d ds IH]; intros arr Hnd Hin; cbn [foldl].
  - inversion Hin.
  - cbn in Hnd. apply NoDup_cons in Hnd as [Hfresh Hnd].
    apply elem_of_cons in Hin as [E|Hin].
    + subst d. apply foldl_designate_keeps.
      * apply Forall_forall. intros [k' s'] Hin' Heq. cbn in Heq.
        apply N2Nat.inj in Heq. subst k'.
        apply Hfresh. apply list_elem_of_fmap. now exists (k, s').
      * exact (designate_lookup_eq arr (k, s)).
    + now apply IH.
Qed.

(** *** The directory *)

(** C8, as amended. The name of every populated slot [k] is stored in
    [cap_names] at position [k], the slot index itself. *)
Theorem cap_names_indexed_by_slot cs k c :
  cnode_slots cs !! k = Some (Some c) ->
  cap_names cs !! N.to_nat k = Some (Some (referent_name c)).
Proof.
  intros Hk. unfold cap_names.
  apply foldl_designate_lookup; [apply NoDup_cap_names_init|].
  apply elem_of_cap_names_init. now exists c.
Qed.

Lemma cap_names_indexed_by_slot_witness :
  cnode_slots (example_cap_space "tcb_a" "tcb_b") !! 5%N
  = Some (Some {| referent_name := "tcb_b" |})
  /\ cap_names (example_cap_space "tcb_a" "tcb_b") !! N.to_nat 5
     = Some (Some "tcb_b").
Proof.
  assert (Hk : cnode_slots (example_cap_space "tcb_a" "tcb_b") !! 5%N
               = Some (Some {| referent_name := "tcb_b" |}))
    by reflexivity.
  split; [exact Hk|].
  exact (cap_names_indexed_by_slot _ 5%N _ Hk).
Defined.

(** C8, as stated, fails: with [ALL_TCB_CAPS_MIN] equal to 2, slot 3 holds
    the capability of [tcb_a], but position [3 - 2] of [cap_names] is a
    null pointer; the name is at position 3. *)
Lemma cap_names_not_offset_from_min :
  ALL_TCB_CAPS_MIN (example_cap_space "tcb_a" "tcb_b") = Some 2%N
  /\ ALL_TCB_CAPS_MAX (example_cap_space "tcb_a" "tcb_b") = Some 5%N
  /\ cnode_slots (example_cap_space "tcb_a" "tcb_b") !! 3%N
     = Some (Some {| referent_name := "tcb_a" |})
  /\ cap_names (example_cap_space "tcb_a" "tcb_b") !! N.to_nat (3 - 2)
     = Some None
  /\ cap_names (example_cap_space "tcb_a" "tcb_b") !! N.to_nat 3
     = Some (Some "tcb_a").
Proof. repeat split; vm_compute; reflexivity. Qed.

(** *** The shape of the array *)

Lemma lookup_designate arr d i :
  designate arr d !! i
  = if decide (i = N.to_nat d.1) then Some (Some d.2)
    else if decide (i < length arr)%nat then arr !! i
    else if decide (i < N.to_nat d.1)%nat then Some None
    else None.
Proof.
  unfold designate. case_decide as Hi.
  - subst i. apply list_lookup_insert_eq.
    rewrite length_app, length_replicate. lia.
  - rewrite list_lookup_insert_ne by congruence.
    case_decide as Hlen; [now apply lookup_app_l|].
    rewrite lookup_app_r by lia.
    case_decide as Hlt.
    + apply lookup_replicate_2. lia.
    + apply lookup_replicate_None. lia.
Qed.

Lemma length_designate arr d :
  length (designate arr d) = Nat.max (length arr) (S (N.to_nat d.1)).
Proof.
  unfold designate. rewrite length_insert, length_app, length_replicate. lia.
Qed.

Lemma foldl_designate_named ds arr i s :
  foldl designate arr ds !! i = Some (Some s) ->
  arr !! i = Some (Some s) \/ exists k, (k, s) ∈ ds /\ N.to_nat k = i.
Proof.
  revert arr. induction ds as [|d ds IH]; intros arr H; cbn [foldl] in H.
  - now left.
  - destruct (IH _ H) as [Hd|(k & Hin & Hk)].
    + rewrite lookup_designate in Hd. destruct d as [k' s'].
      cbn [fst snd] in Hd. repeat case_decide.
      * right. exists k'. inversion Hd; subst. split; [left|]; reflexivity.
      * now left.
      * discriminate.
      * discriminate.
    + right. exists k. split; [now right | exact Hk].
Qed.

Lemma length_foldl_designate ds arr :
  (length arr <= length (foldl designate arr ds))%nat
  /\ (forall d, d ∈ ds ->
        (N.to_nat d.1 < length (foldl designate arr ds))%nat)
  /\ (length (foldl designate arr ds) = length arr
      \/ exists d, d ∈ ds
                   /\ length (foldl designate arr ds) = S (N.to_nat d.1)).
Proof.
  revert arr. induction ds as [|d ds IH]; intros arr; cbn [foldl].
  - split; [lia|]. split; [intros d H; inversion H | now left].
  - destruct (IH (designate arr d)) as (Hle & Hall & Hmax).
    rewrite length_designate in Hle, Hmax.
    split; [lia|]. split.
    + intros d' Hin. apply elem_of_cons in Hin as [->|Hin];
        [lia | now apply Hall].
    + destruct Hmax as [Hmax|(d' & Hin & Hmax)].
      * destruct (Nat.max_spec (length arr) (S (N.to_nat d.1)))
          as [[_ E]|[_ E]]; rewrite E in Hmax.
        -- right. exists d. split; [left | exact Hmax].
        -- now left.
      * right. exists d'. split; [now right | exact Hmax].
Qed.

Lemma designators_Permutation items items' :
  items ≡ₚ items' -> designators items ≡ₚ designators items'.
Proof.
  induction 1 as [|[i [c|]] l l' _ IH
                  |[i [c|]] [j [c'|]] l
                  |l1 l2 l3 _ IH1 _ IH2]; cbn [designators].
  - reflexivity.
  - now constructor.
  - exact IH.
  - apply perm_swap.
  - reflexivity.
  - reflexivity.
  - reflexivity.
  - now transitivity (designators l2).
Qed.

Lemma foldl_designate_Permutation ds ds' :
  NoDup ds.*1 -> ds ≡ₚ ds' ->
  foldl designate [] ds = foldl designate [] ds'.
Proof.
  intros Hnd Hperm.
  assert (Hnd' : NoDup ds'.*1) by now rewrite <- Hperm.
  assert (Hlen : length (foldl designate [] ds)
                 = length (foldl designate [] ds')).
  { destruct (length_foldl_designate ds []) as (_ & Hall & Hmax).
    destruct (length_foldl_designate ds' []) as (_ & Hall' & Hmax').
    cbn [length] in Hmax, Hmax'. apply Nat.le_antisymm.
    - destruct Hmax as [->|(d & Hin & ->)]; [lia|].
      rewrite Hperm in Hin. apply Hall' in Hin. lia.
    - destruct Hmax' as [->|(d & Hin & ->)]; [lia|].
      rewrite <- Hperm in Hin. apply Hall in Hin. lia. }
  apply list_eq. intros i.
  destruct (foldl designate [] ds !! i) as [[s|]|] eqn:E.
  - apply foldl_designate_named in E as [E|(k & Hin & <-)];
      [inversion E|].
    symmetry. apply foldl_designate_lookup; [exact Hnd'|].
    now rewrite <- Hperm.
  - assert (Hlt : (i < length (foldl designate [] ds'))%nat).
    { rewrite <- Hlen. apply lookup_lt_Some in E. exact E. }
    apply lookup_lt_is_Some in Hlt as [[s'|] E']; [|now rewrite E'].
    apply foldl_designate_named in E' as [E'|(k & Hin & <-)];
      [inversion E'|].
    rewrite <- Hperm in Hin.
    rewrite (foldl_designate_lookup ds [] k s' Hnd Hin) in E.
    discriminate E.
  - symmetry. apply lookup_ge_None. rewrite <- Hlen.
    now apply lookup_ge_None.
Qed.

(** [ALL_TCB_CAPS_NUM] sizes an array over the slots of
    [all_tcb_caps_slots]: for every such slot [k], the offset
    [k - ALL_TCB_CAPS_MIN] is at least 0 and below [ALL_TCB_CAPS_NUM]. *)
Theorem all_tcb_caps_num_covers_slots cs mn n k :
  ALL_TCB_CAPS_MIN cs = Some mn ->
  ALL_TCB_CAPS_NUM cs = Some n ->
  k ∈ all_tcb_caps_slots cs ->
  0 <= Z.of_N k - Z.of_N mn < n.
Proof.
  intros Hmin Hnum Hk.
  assert (Hne : all_tcb_caps_slots cs <> [])
    by (intros E; rewrite E in Hk; inversion Hk).
  destruct (py_min_spec _ Hne) as (mn' & Hmin' & _ & Hmn_le).
  destruct (py_max_spec _ Hne) as (mx & Hmax & _ & Hmx_le).
  unfold ALL_TCB_CAPS_NUM, ALL_TCB_CAPS_MIN, ALL_TCB_CAPS_MAX in *.
  rewrite Hmin' in Hmin. inversion Hmin; subst mn'.
  rewrite Hmax, Hmin' in Hnum. cbn in Hnum. inversion Hnum; subst n.
  specialize (Hmn_le k Hk). specialize (Hmx_le k Hk). lia.
Qed.

Lemma all_tcb_caps_num_covers_slots_witness :
  ALL_TCB_CAPS_MIN (example_cap_space "tcb_a" "tcb_b") = Some 2%N /\
  ALL_TCB_CAPS_NUM (example_cap_space "tcb_a" "tcb_b") = Some 4 /\
  4%N ∈ all_tcb_caps_slots (example_cap_space "tcb_a" "tcb_b") /\
  0 <= Z.of_N 4 - Z.of_N 2 < 4.
Proof.
  assert (Hmin : ALL_TCB_CAPS_MIN (example_cap_space "tcb_a" "tcb_b")
                 = Some 2%N) by reflexivity.
  assert (Hnum : ALL_TCB_CAPS_NUM (example_cap_space "tcb_a" "tcb_b")
                 = Some 4) by reflexivity.
  assert (Hk : 4%N ∈ all_tcb_caps_slots (example_cap_space "tcb_a" "tcb_b"))
    by (cbn; do 2 right; left).
  split; [exact Hmin|]. split; [exact Hnum|]. split; [exact Hk|].
  exact (all_tcb_caps_num_covers_slots _ 2%N 4 4%N Hmin Hnum Hk).
Defined.

(** An element of [cap_names] is a name exactly when the slot with that
    index is populated, and then it is the name of the slot's referent;
    every other element of the array is a null pointer. *)
Theorem cap_names_lookup cs i :
  (forall s,
      cap_names cs !! i = Some (Some s)
      <-> exists c, cnode_slots cs !! N.of_nat i = Some (Some c)
                    /\ referent_name c = s)
  /\ ((i < length (cap_names cs))%nat ->
      (forall c, cnode_slots cs !! N.of_nat i <> Some (Some c)) ->
      cap_names cs !! i = Some None).
Proof.
  assert (Hiff : forall s,
             cap_names cs !! i = Some (Some s)
             <-> exists c, cnode_slots cs !! N.of_nat i = Some (Some c)
                           /\ referent_name c = s).
  { intros s. unfold cap_names. split.
    - intros H. apply foldl_designate_named in H as [H|(k & Hin & Hk)];
        [inversion H|].
      apply elem_of_cap_names_init in Hin as (c & Hc & Hn).
      exists c. split; [|exact Hn]. now rewrite <- Hk, N2Nat.id.
    - intros (c & Hc & Hn).
      rewrite <- (Nat2N.id i) at 1.
      apply foldl_designate_lookup; [apply NoDup_cap_names_init|].
      apply elem_of_cap_names_init. now exists c. }
  split; [exact Hiff|].
  intros Hlt Hempty. apply lookup_lt_is_Some in Hlt as [[s|] E];
    [|exact E].
  apply Hiff in E as (c & Hc & _). now apply Hempty in Hc.
Qed.

Lemma cap_names_lookup_witness :
  (4 < length (cap_names (example_cap_space "tcb_a" "tcb_b")))%nat
  /\ (forall c,
        cnode_slots (example_cap_space "tcb_a" "tcb_b") !! N.of_nat 4
        <> Some (Some c))
  /\ cap_names (example_cap_space "tcb_a" "tcb_b") !! 4%nat = Some None
  /\ cap_names (example_cap_space "tcb_a" "tcb_b") !! 5%nat
     = Some (Some "tcb_b").
Proof.
  assert (Hlt : (4 < length (cap_names (example_cap_space "tcb_a" "tcb_b")))%nat)
    by (vm_compute; lia).
  assert (Hempty : forall c,
             cnode_slots (example_cap_space "tcb_a" "tcb_b") !! N.of_nat 4
             <> Some (Some c))
    by (intros c H; vm_compute in H; discriminate H).
  split; [exact Hlt|]. split; [exact Hempty|]. split.
  - exact (proj2 (cap_names_lookup (example_cap_space "tcb_a" "tcb_b") 4)
             Hlt Hempty).
  - apply (proj1 (cap_names_lookup (example_cap_space "tcb_a" "tcb_b") 5)).
    exists {| referent_name := "tcb_b" |}. split; reflexivity.
Defined.

(** [cap_names] reaches every populated slot and stops after the highest
    one: the index of every populated slot is below its length, and the
    length is 0 or one more than the index of a populated slot. Its length
    does not depend on [ALL_TCB_CAPS_MAX]. *)
Theorem cap_names_length cs :
  (forall k c,
      cnode_slots cs !! k = Some (Some c) ->
      (N.to_nat k < length (cap_names cs))%nat)
  /\ (length (cap_names cs) = 0%nat
      \/ exists k c,
           cnode_slots cs !! k = Some (Some c)
           /\ length (cap_names cs) = S (N.to_nat k)).
Proof.
  unfold cap_names.
  destruct (length_foldl_designate (cap_names_init cs) [])
    as (_ & Hall & Hmax).
  split.
  - intros k c Hk.
    apply (Hall (k, referent_name c)).
    apply elem_of_cap_names_init. now exists c.
  - destruct Hmax as [Hmax|([k s] & Hin & Hmax)]; [now left|].
    right. apply elem_of_cap_names_init in Hin as (c & Hc & _).
    now exists k, c.
Qed.

Lemma cap_names_length_witness :
  cnode_slots (example_cap_space "tcb_a" "tcb_b") !! 5%N
  = Some (Some {| referent_name := "tcb_b" |})
  /\ (N.to_nat 5 < length (cap_names (example_cap_space "tcb_a" "tcb_b")))%nat.
Proof.
  assert (Hk : cnode_slots (example_cap_space "tcb_a" "tcb_b") !! 5%N
               = Some (Some {| referent_name := "tcb_b" |}))
    by reflexivity.
  split; [exact Hk|].
  exact (proj1 (cap_names_length (example_cap_space "tcb_a" "tcb_b"))
           5%N _ Hk).
Defined.

(** [cap_names] does not depend on the order in which the dictionary
    [cnode.slots] is iterated: whatever order [items()] yields the items
    in, the array is the same. *)
Theorem cap_names_order_independent cs items :
  items ≡ₚ map_to_list (cnode_slots cs) ->
  cap_names_from items = cap_names cs.
Proof.
  intros Hperm. unfold cap_names_from, cap_names, cap_names_init.
  apply foldl_designate_Permutation.
  - apply NoDup_designators. rewrite Hperm. apply NoDup_fst_map_to_list.
  - now apply designators_Permutation.
Qed.

Lemma cap_names_order_independent_witness :
  reverse (map_to_list (cnode_slots (example_cap_space "tcb_a" "tcb_b")))
  ≡ₚ map_to_list (cnode_slots (example_cap_space "tcb_a" "tcb_b"))
  /\ cap_names_from
       (reverse
          (map_to_list (cnode_slots (example_cap_space "tcb_a" "tcb_b"))))
     = cap_names (example_cap_space "tcb_a" "tcb_b").
Proof.
  assert (Hperm :
    reverse (map_to_list (cnode_slots (example_cap_space "tcb_a" "tcb_b")))
    ≡ₚ map_to_list (cnode_slots (example_cap_space "tcb_a" "tcb_b")))
    by apply reverse_Permutation.
  split; [exact Hperm|].
  exact (cap_names_order_independent _ _ Hperm).
Defined.

(** *** The directory and the range *)

(** C7, as amended. The directory has an entry exactly for the populated
    slots of [cnode.slots], whether or not their index lies between
    [ALL_TCB_CAPS_MIN] and [ALL_TCB_CAPS_MAX]: the initializer list of
    [cap_names] has one entry [(idx, name)] per populated slot and none for
    an empty slot, and element [idx] of the array [cap_names] is a name
    exactly when slot [idx] is populated, then the name of its referent.
    [ALL_TCB_CAPS_MIN] and [ALL_TCB_CAPS_MAX] are the least and the greatest
    of [all_tcb_caps_slots], and [ALL_TCB_CAPS_NUM] is [max - min + 1]. For
    the range 2 to 5 and a CNode whose populated slots are 3 and 5, the
    entries are those of 3 and 5 and [ALL_TCB_CAPS_NUM] is 4. *)
Theorem cap_directory_records_cnode_slots cs :
  all_tcb_caps_slots cs <> [] ->
  (forall idx s,
      (idx, s) ∈ cap_names_init cs
      <-> exists c, cnode_slots cs !! idx = Some (Some c)
                    /\ referent_name c = s)
  /\ NoDup (cap_names_init cs).*1
  /\ (forall idx s,
        cap_names cs !! N.to_nat idx = Some (Some s)
        <-> exists c, cnode_slots cs !! idx = Some (Some c)
                      /\ referent_name c = s)
  /\ (exists mn mx,
        ALL_TCB_CAPS_MIN cs = Some mn /\ ALL_TCB_CAPS_MAX cs = Some mx
        /\ mn ∈ all_tcb_caps_slots cs /\ mx ∈ all_tcb_caps_slots cs
        /\ (forall k, k ∈ all_tcb_caps_slots cs -> (mn <= k <= mx)%N)
        /\ ALL_TCB_CAPS_NUM cs = Some (Z.of_N mx - Z.of_N mn + 1))
  /\ (forall a b,
        ALL_TCB_CAPS_MIN (example_cap_space a b) = Some 2%N
        /\ ALL_TCB_CAPS_MAX (example_cap_space a b) = Some 5%N
        /\ cap_names_init (example_cap_space a b) ≡ₚ [(3%N, a); (5%N, b)]
        /\ cap_names (example_cap_space a b)
           = [None; None; None; Some a; None; Some b]
        /\ ALL_TCB_CAPS_NUM (example_cap_space a b) = Some 4).
Proof.
  intros Hne.
  split; [intros idx s; apply elem_of_cap_names_init|].
  split; [apply NoDup_cap_names_init|].
  split; [|split].
  - intros idx s. unfold cap_names. split.
    + intros H. apply foldl_designate_named in H as [H|(k & Hin & Hk)];
        [inversion H|].
      apply N2Nat.inj in Hk. subst k.
      now apply elem_of_cap_names_init.
    + intros Hc.
      apply foldl_designate_lookup; [apply NoDup_cap_names_init|].
      now apply elem_of_cap_names_init.
  - destruct (py_min_spec _ Hne) as (mn & Hmin & Hmn_in & Hmn_le).
    destruct (py_max_spec _ Hne) as (mx & Hmax & Hmx_in & Hmx_le).
    exists mn, mx. unfold ALL_TCB_CAPS_NUM, ALL_TCB_CAPS_MIN, ALL_TCB_CAPS_MAX.
    rewrite Hmin, Hmax. repeat split; auto.
  - intros a b.
    split; [reflexivity|]. split; [reflexivity|]. split; [|split].
    + let l := eval vm_compute in (cap_names_init (example_cap_space a b)) in
      change (cap_names_init (example_cap_space a b)) with l.
      apply perm_swap.
    + vm_compute. reflexivity.
    + reflexivity.
Qed.

Lemma cap_directory_records_cnode_slots_witness :
  all_tcb_caps_slots wide_cap_space <> []
  /\ (7%N, "frame") ∈ cap_names_init wide_cap_space
  /\ cap_names wide_cap_space !! N.to_nat 7 = Some (Some "frame")
  /\ ALL_TCB_CAPS_NUM wide_cap_space = Some 2.
Proof.
  assert (Hne : all_tcb_caps_slots wide_cap_space <> [])
    by (cbn; discriminate).
  destruct (cap_directory_records_cnode_slots wide_cap_space Hne)
    as (Hinit & _ & Harr & _).
  split; [exact Hne|]. split; [|split].
  - apply Hinit. exists {| referent_name := "frame" |}.
    split; reflexivity.
  - apply Harr. exists {| referent_name := "frame" |}.
    split; reflexivity.
  - reflexivity.
Defined.

(** C7, as stated, fails: with [all_tcb_caps_slots] equal to 2 and 3 the
    range is 2 to 3 and [ALL_TCB_CAPS_NUM] is 2, but the CNode also holds
    capabilities in the slots 1 and 7, and the directory records both: its
    initializer list has entries for 1 and 7, and the array [cap_names] has
    eight elements with names at the positions 1, 3 and 7. *)
Lemma cap_directory_leaves_range :
  ALL_TCB_CAPS_MIN wide_cap_space = Some 2%N
  /\ ALL_TCB_CAPS_MAX wide_cap_space = Some 3%N
  /\ ALL_TCB_CAPS_NUM wide_cap_space = Some 2
  /\ (1%N, "ep") ∈ cap_names_init wide_cap_space
  /\ (7%N, "frame") ∈ cap_names_init wide_cap_space
  /\ ~ (2 <= 1 <= 3)%N
  /\ ~ (2 <= 7 <= 3)%N
  /\ cap_names wide_cap_space
     = [None; Some "ep"; None; Some "tcb_b"; None; None; None; Some "frame"].
Proof.
  split; [reflexivity|]. split; [reflexivity|]. split; [reflexivity|].
  split.
  { apply elem_of_cap_names_init. exists {| referent_name := "ep" |}.
    split; reflexivity. }
  split.
  { apply elem_of_cap_names_init. exists {| referent_name := "frame" |}.
    split; reflexivity. }
  split; [lia|]. split; [lia|].
  vm_compute. reflexivity.
Qed.

End AllTcbCapsFacts.
